(** * nimbix-admin/ssh.py: resolving the address of a running job by image name

    The script reads the credentials from [nimbix.yaml], takes the image
    name from the command line, asks the JARVICE API for the job listing,
    searches the listing for the first job whose
    [job_api_submission.nae.name] is the image, asks for the connection
    details of that job and prints their [address].

    The development embeds the script statement by statement.  What the
    script obtains from its environment (the command line, the
    configuration file, the answers of the API) is a [world]; what it does
    to its environment (lines printed, requests sent) is a [state]
    threaded through a small state-and-exception monad.  [run] adds what
    the interpreter does when the script ends: exit status, traceback. *)

From Stdlib Require Import String Ascii List ZArith Bool Lia.
Import ListNotations.
Set Warnings "-register-all".
Local Open Scope string_scope.
Local Open Scope list_scope.

(** ** Python values *)

(** The objects [json.loads] builds.  A [dict] keeps its items in
    iteration order, so it is an association list; a [float] is
    identified by its [repr]. *)
Inductive pyval : Type :=
| PyNone
| PyBool (b : bool)
| PyInt (n : Z)
| PyFloat (repr : string)
| PyStr (s : string)
| PyList (l : list pyval)
| PyDict (d : list (string * pyval)).

(** The exceptions the script can end on.  [ValueError] covers its
    subclasses [UnicodeDecodeError] and [JSONDecodeError]; [OSError]
    stands for whatever [open] or [yaml.load] raise on [nimbix.yaml];
    [RequestException] is the base class of what [requests.get] raises. *)
Inductive exn : Type :=
| OSError
| IndexError
| KeyError (key : string)
| TypeError
| AttributeError
| ValueError
| RequestException
| AssertionError
| SystemExit (code : Z).

(** The value bound to [image]: a [str], or what [argparse] can store in
    its place (a list of strings), or [None], which the guard of the
    script tests for. *)
Inductive image_value : Type :=
| ImageNone
| ImageStr (s : string)
| ImageList (l : list string).

(** ** argparse

    [ArgumentParser.parse_args] of the standard library (CPython 3.11),
    specialised to the parser the script builds: the automatic
    [-h]/[--help] and [--image] with [default='ng0'], no positional
    argument.  Strings are byte strings and [\d] is an ASCII digit. *)
Module Argparse.

Inductive action : Type := Help | StoreImage.

(** [parser._option_string_actions], in insertion order. *)
Definition option_string_actions : list (string * action) :=
  [("-h", Help); ("--help", Help); ("--image", StoreImage)].

Fixpoint lookup (s : string) (l : list (string * action)) : option action :=
  match l with
  | [] => None
  | (k, a) :: rest => if String.eqb k s then Some a else lookup s rest
  end.

(** [action.nargs] as a count: [help] takes no argument, [--image] one. *)
Definition nargs (a : action) : nat :=
  match a with Help => 0 | StoreImage => 1 end.

(** [(action, option_string, explicit_arg)]; the action is [None] for a
    string that looks like an option the parser does not have. *)
Definition option_tuple : Type := (option action * string * option string)%type.

(** [s.split('=', 1)] when ['=' in s]. *)
Fixpoint split_eq (s : string) : option (string * string) :=
  match s with
  | EmptyString => None
  | String c rest =>
      if Ascii.eqb c "="%char then Some (EmptyString, rest)
      else match split_eq rest with
           | Some (l, r) => Some (String c l, r)
           | None => None
           end
  end.

Fixpoint contains (c : ascii) (s : string) : bool :=
  match s with
  | EmptyString => false
  | String d rest => Ascii.eqb c d || contains c rest
  end.

Definition is_dash (c : ascii) : bool := Ascii.eqb c "-"%char.

(** [s[1] in parser.prefix_chars] *)
Definition second_is_dash (s : string) : bool :=
  match s with
  | String _ (String c _) => is_dash c
  | _ => false
  end.

Definition is_digit (c : ascii) : bool :=
  let n := nat_of_ascii c in (48 <=? n)%nat && (n <=? 57)%nat.

Fixpoint skip_digits (s : string) : string :=
  match s with
  | String c rest => if is_digit c then skip_digits rest else s
  | EmptyString => s
  end.

(** [$]: the end of the string, or just before a final newline. *)
Definition at_end (s : string) : bool :=
  String.eqb s "" || String.eqb s (String "010"%char "").

(** [\d+$] *)
Definition digits1_end (s : string) : bool :=
  match s with
  | String c _ => is_digit c && at_end (skip_digits s)
  | EmptyString => false
  end.

(** [parser._negative_number_matcher]: ['^-\d+$|^-\d*\.\d+$'] *)
Definition negative_number (s : string) : bool :=
  match s with
  | String c rest =>
      is_dash c &&
      (digits1_end rest
       || match skip_digits rest with
          | String d frac => Ascii.eqb d "."%char && digits1_end frac
          | EmptyString => false
          end)
  | EmptyString => false
  end.

(** [_get_option_tuples]: the option strings [arg] abbreviates.  [None]
    is the branch that calls [parser.error]. *)
Definition get_option_tuples (arg : string) : option (list option_tuple) :=
  match arg with
  | String c0 (String c1 _) =>
      if is_dash c0 && is_dash c1 then
        (* allow_abbrev *)
        let '(option_prefix, explicit_arg) :=
          match split_eq arg with
          | Some (l, r) => (l, Some r)
          | None => (arg, None)
          end in
        Some (flat_map
                (fun '(option_string, a) =>
                   if String.prefix option_prefix option_string
                   then [(Some a, option_string, explicit_arg)] else [])
                option_string_actions)
      else if is_dash c0 && negb (is_dash c1) then
        let short_option_prefix := String c0 (String c1 "") in
        let short_explicit_arg := String.substring 2 (String.length arg - 2) arg in
        Some (flat_map
                (fun '(option_string, a) =>
                   if String.eqb option_string short_option_prefix
                   then [(Some a, option_string, Some short_explicit_arg)]
                   else if String.prefix arg option_string
                   then [(Some a, option_string, None)] else [])
                option_string_actions)
      else None
  | _ => None
  end.

(** What [_parse_optional] makes of one command-line string. *)
Inductive parsed : Type :=
| Positional                    (* returns None *)
| Optional (t : option_tuple)
| Rejected.                     (* parser.error *)

Definition parse_optional (arg : string) : parsed :=
  match arg with
  | EmptyString => Positional
  | String c0 _ =>
      if negb (is_dash c0) then Positional
      else match lookup arg option_string_actions with
      | Some a => Optional (Some a, arg, None)
      | None =>
      if (String.length arg =? 1)%nat then Positional
      else
        let by_eq :=
          match split_eq arg with
          | Some (option_string, explicit_arg) =>
              match lookup option_string option_string_actions with
              | Some a => Some (Some a, option_string, Some explicit_arg)
              | None => None
              end
          | None => None
          end in
        match by_eq with
        | Some t => Optional t
        | None =>
            match get_option_tuples arg with
            | None => Rejected
            | Some (_ :: _ :: _) => Rejected
            | Some [t] => Optional t
            | Some [] =>
                if negative_number arg then Positional
                else if contains " "%char arg then Positional
                else Optional (None, arg, None)
            end
        end
      end
  end.

(** One letter of [arg_strings_pattern]. *)
Inductive sym : Type :=
| SymO (t : option_tuple)
| SymA
| SymDash.

(** The first loop of [_parse_known_args]: every string with its
    letter; everything after the first [--] is an argument. *)
Fixpoint classify (arg_strings : list string) : option (list (string * sym)) :=
  match arg_strings with
  | [] => Some []
  | arg :: rest =>
      if String.eqb arg "--" then
        Some ((arg, SymDash) :: map (fun a => (a, SymA)) rest)
      else
        match parse_optional arg with
        | Rejected => None
        | Positional => option_map (cons (arg, SymA)) (classify rest)
        | Optional t => option_map (cons (arg, SymO t)) (classify rest)
        end
  end.

(** The [while True] loop of [consume_optional] while there is an
    explicit argument: either an error, or the action tuples collected
    so far, closed ([ChainArgs]) or with a last action that still takes
    its arguments from the strings that follow ([ChainOpen]). *)
Inductive chain : Type :=
| ChainError
| ChainArgs (tuples : list (action * list string))
| ChainOpen (tuples : list (action * list string)) (last : action).

Definition chain_cons (t : action * list string) (c : chain) : chain :=
  match c with
  | ChainError => ChainError
  | ChainArgs ts => ChainArgs (t :: ts)
  | ChainOpen ts a => ChainOpen (t :: ts) a
  end.

Fixpoint explicit_loop (a : action) (option_string explicit_arg : string) : chain :=
  match nargs a with
  | 0%nat =>
      if second_is_dash option_string then ChainError
      else match explicit_arg with
           | EmptyString => ChainError
           | String c new_explicit_arg =>
               let option_string' := String "-"%char (String c "") in
               match lookup option_string' option_string_actions with
               | None => ChainError
               | Some a' =>
                   chain_cons (a, [])
                     match new_explicit_arg with
                     | EmptyString => ChainOpen [] a'
                     | _ => explicit_loop a' option_string' new_explicit_arg
                     end
               end
           end
  | 1%nat => ChainArgs [(a, [explicit_arg])]
  | _ => ChainError
  end.

(** [arg_strings.remove('--')] *)
Fixpoint remove_first_dashes (l : list string) : list string :=
  match l with
  | [] => []
  | x :: rest => if String.eqb x "--" then rest else x :: remove_first_dashes rest
  end.

(** [_get_values] for [--image] ([nargs=None], [type=None]). *)
Definition get_values (arg_strings : list string) : image_value :=
  match remove_first_dashes arg_strings with
  | [arg_string] => ImageStr arg_string
  | l => ImageList l
  end.

Inductive outcome : Type :=
| Namespace (image : image_value)
| HelpExit        (* help on stdout, sys.exit(0) *)
| ErrorExit.      (* usage and message on stderr, sys.exit(2) *)

(** [take_action] over the collected tuples, in order: [help] prints
    and exits, [--image] stores.  [None]: help was taken. *)
Fixpoint take_actions (tuples : list (action * list string)) (image : image_value)
  : option image_value :=
  match tuples with
  | [] => Some image
  | (Help, _) :: _ => None
  | (StoreImage, args) :: rest => take_actions rest (get_values args)
  end.

(** The main loop of [_parse_known_args] and the end of [parse_args].
    There is no positional action, so a string that no option takes
    goes to [extras]; [extras] only matters for being empty or not. *)
Fixpoint consume (items : list (string * sym)) (image : image_value) (extras : bool)
  : outcome :=
  match items with
  | [] => if extras then ErrorExit else Namespace image
  | (_, SymA) :: rest => consume rest image true
  | (_, SymDash) :: rest => consume rest image true
  | (_, SymO (None, _, _)) :: rest => consume rest image true
  | (_, SymO (Some a, option_string, explicit_arg)) :: rest =>
      let c := match explicit_arg with
               | Some e => explicit_loop a option_string e
               | None => ChainOpen [] a
               end in
      match c with
      | ChainError => ErrorExit
      | ChainArgs tuples =>
          match take_actions tuples image with
          | None => HelpExit
          | Some image' => consume rest image' extras
          end
      | ChainOpen tuples last =>
          match nargs last with
          | 0%nat =>
              match take_actions (tuples ++ [(last, [])]) image with
              | None => HelpExit
              | Some image' => consume rest image' extras
              end
          | _ =>
              match rest with
              | (v, SymA) :: rest' =>
                  match take_actions (tuples ++ [(last, [v])]) image with
                  | None => HelpExit
                  | Some image' => consume rest' image' extras
                  end
              | _ => ErrorExit
              end
          end
      end
  end.

(** [parser.parse_args(arg_strings)] with [image] defaulting to
    [default]. *)
Definition parse_args (default : string) (arg_strings : list string) : outcome :=
  match classify arg_strings with
  | None => ErrorExit
  | Some items => consume items (ImageStr default) false
  end.

End Argparse.

(** ** Results, state and the monad of the script *)

Inductive result (A : Type) : Type :=
| Ok (a : A)
| Raise (e : exn).
Arguments Ok {A} a.
Arguments Raise {A} e.

(** An HTTP response as the script looks at it: [res.status_code], and
    what [json.loads(res.content.decode('utf-8'))] evaluates to, [None]
    when that expression raises. *)
Record response : Type := {
  status_code : Z;
  content_json : option pyval
}.

(** What the script is given: [sys.argv]; the mapping [yaml.load] reads
    from [nimbix.yaml] ([None] when [open] or [yaml.load] raises), its
    values being strings; the answer of [requests.get] to each URL
    ([None] when it raises). *)
Record world : Type := {
  argv : list string;
  nimbix_yaml : option (list (string * string));
  requests_get : string -> option response
}.

(** What is written on a standard stream: an object printed by [print]
    (the text is [str(v)] and a newline; for a [str] that is the string
    itself), the help or the usage-and-error text of [argparse], the
    traceback the interpreter prints for an uncaught exception. *)
Inductive out_item : Type :=
| Printed (v : pyval)
| ArgparseHelp
| ArgparseUsage
| Traceback (e : exn).

(** What the script has done so far. *)
Record state : Type := {
  out : list out_item;      (* sys.stdout *)
  err : list out_item;      (* sys.stderr *)
  sent : list string        (* URLs requested *)
}.

Definition initial : state := {| out := []; err := []; sent := [] |}.

Definition M (A : Type) : Type := state -> result A * state.

Class Monad (m : Type -> Type) : Type := {
  ret : forall {A}, A -> m A;
  bind : forall {A B}, m A -> (A -> m B) -> m B
}.

#[global] Instance Monad_result : Monad result := {
  ret := fun A a => Ok a;
  bind := fun A B c k => match c with Ok a => k a | Raise e => Raise e end
}.

#[global] Instance Monad_M : Monad M := {
  ret := fun A a st => (Ok a, st);
  bind := fun A B c k st =>
    match c st with
    | (Ok a, st') => k a st'
    | (Raise e, st') => (Raise e, st')
    end
}.

Declare Scope py_scope.
Delimit Scope py_scope with py.
Notation "x <- c1 ;; c2" := (bind c1 (fun x => c2))
  (at level 61, c1 at next level, right associativity) : py_scope.
Notation "c1 ;; c2" := (bind c1 (fun _ => c2))
  (at level 61, right associativity) : py_scope.
Local Open Scope py_scope.

Definition raise {A : Type} (e : exn) : M A := fun st => (Raise e, st).

Definition lift {A : Type} (r : result A) : M A := fun st => (r, st).

(** [print(v)] *)
Definition print (v : pyval) : M unit :=
  fun st => (Ok tt, {| out := out st ++ [Printed v]; err := err st; sent := sent st |}).

Definition write_out (i : out_item) : M unit :=
  fun st => (Ok tt, {| out := out st ++ [i]; err := err st; sent := sent st |}).

Definition write_err (i : out_item) : M unit :=
  fun st => (Ok tt, {| out := out st; err := err st ++ [i]; sent := sent st |}).

(** [sys.exit(code)] *)
Definition sys_exit {A : Type} (code : Z) : M A := raise (SystemExit code).

Definition send (st : state) (url : string) : state :=
  {| out := out st; err := err st; sent := sent st ++ [url] |}.

(** [requests.get(url)] *)
Definition get (w : world) (url : string) : M response :=
  fun st =>
    match requests_get w url with
    | Some res => (Ok res, send st url)
    | None => (Raise RequestException, send st url)
    end.

(** [json.loads(res.content.decode('utf-8'))] *)
Definition json_loads (res : response) : result pyval :=
  match content_json res with
  | Some v => Ok v
  | None => Raise ValueError
  end.

Fixpoint dict_get {V : Type} (d : list (string * V)) (key : string) : option V :=
  match d with
  | [] => None
  | (k, v) :: rest => if String.eqb k key then Some v else dict_get rest key
  end.

(** [v[key]] for a string [key]: only a [dict] can be indexed by a
    string. *)
Definition py_getitem (v : pyval) (key : string) : result pyval :=
  match v with
  | PyDict d =>
      match dict_get d key with
      | Some x => Ok x
      | None => Raise (KeyError key)
      end
  | _ => Raise TypeError
  end.

(** [v.items()]: only a [dict] has the method. *)
Definition py_items (v : pyval) : result (list (string * pyval)) :=
  match v with
  | PyDict d => Ok d
  | _ => Raise AttributeError
  end.

(** [config[key]] *)
Definition config_getitem (config : list (string * string)) (key : string) : result string :=
  match dict_get config key with
  | Some x => Ok x
  | None => Raise (KeyError key)
  end.

Fixpoint str_list_eq (vs : list pyval) (l : list string) : bool :=
  match vs, l with
  | [], [] => true
  | PyStr s :: vs', t :: l' => String.eqb s t && str_list_eq vs' l'
  | _, _ => false
  end.

(** [v == image]: a value decoded from JSON against the image. *)
Definition py_eq (v : pyval) (image : image_value) : bool :=
  match image, v with
  | ImageNone, PyNone => true
  | ImageStr s, PyStr t => String.eqb t s
  | ImageList l, PyList vs => str_list_eq vs l
  | _, _ => false
  end.

(** ** The script *)

Definition api_url : string := "https://api.jarvice.com/jarvice".

(** ['%s/jobs?username=%s&apikey=%s' % (api_url, username, apikey)] *)
Definition jobs_url (username apikey : string) : string :=
  api_url ++ "/jobs?username=" ++ username ++ "&apikey=" ++ apikey.

(** ['%s/connect?username=%s&apikey=%s&number=%s'
     % (api_url, username, apikey, target_jobnumber)] *)
Definition connect_url (username apikey target_jobnumber : string) : string :=
  api_url ++ "/connect?username=" ++ username ++ "&apikey=" ++ apikey
          ++ "&number=" ++ target_jobnumber.

(** Lines 11-12. *)
Definition load_config (w : world) : M (list (string * string)) :=
  match nimbix_yaml w with
  | Some config => ret config
  | None => raise OSError
  end.

(** Lines 15-21: the image from the command line. *)
Definition get_image (argv : list string) : M image_value :=
  if (2 <? length argv)%nat then
    match Argparse.parse_args "ng0" (tl argv) with
    | Argparse.Namespace image => ret image
    | Argparse.HelpExit => write_out ArgparseHelp ;; sys_exit 0
    | Argparse.ErrorExit => write_err ArgparseUsage ;; sys_exit 2
    end
  else
    match nth_error argv 1 with
    | Some a => ret (ImageStr a)
    | None => raise IndexError
    end.

(** [image == '' or image is None] *)
Definition image_missing (image : image_value) : bool :=
  match image with
  | ImageStr s => String.eqb s ""
  | ImageNone => true
  | ImageList _ => false
  end.

(** Lines 26-28. *)
Definition check_image (image : image_value) : M unit :=
  if image_missing image then
    print (PyStr "please provide image name") ;;
    sys_exit 1
  else ret tt.

(** Lines 30-33. *)
Definition list_jobs (w : world) (username apikey : string) : M pyval :=
  res <- get w (jobs_url username apikey) ;;
  lift (json_loads res).

(** [info['job_api_submission']['nae']['name']] *)
Definition entry_name (info : pyval) : result pyval :=
  sub <- py_getitem info "job_api_submission" ;;
  nae <- py_getitem sub "nae" ;;
  py_getitem nae "name".

(** Lines 38-42: the loop over the items, [target_jobnumber] being what
    the variable holds when the loop is entered. *)
Fixpoint search (items : list (string * pyval)) (image : image_value)
    (target_jobnumber : option string) : result (option string) :=
  match items with
  | [] => Ok target_jobnumber
  | (jobnumber, info) :: rest =>
      name <- entry_name info ;;
      if py_eq name image then Ok (Some jobnumber)      (* break *)
      else search rest image target_jobnumber
  end.

(** Lines 37-42. *)
Definition find_job (res : pyval) (image : image_value) : result (option string) :=
  items <- py_items res ;;
  search items image None.

(** Lines 48-52. *)
Definition get_connection_info (w : world) (username apikey target_jobnumber : string)
    : M pyval :=
  res <- get w (connect_url username apikey target_jobnumber) ;;
  res <- lift (json_loads res) ;;
  lift (py_getitem res "address").

(** Lines 37-54: what the script does with the decoded job listing.  The
    interpreter runs without [-O], so the [assert] is executed. *)
Definition resolve_listing (w : world) (username apikey : string) (image : image_value)
    (res : pyval) : M unit :=
  target_jobnumber <- lift (find_job res image) ;;
  match target_jobnumber with
  | None => raise AssertionError       (* assert target_jobnumber is not None *)
  | Some target_jobnumber =>
      ip_address <- get_connection_info w username apikey target_jobnumber ;;
      print ip_address
  end.

(** Lines 30-54. *)
Definition resolve_address (w : world) (username apikey : string) (image : image_value)
    : M unit :=
  res <- list_jobs w username apikey ;;
  resolve_listing w username apikey image res.

(** Lines 26-54. *)
Definition guarded (w : world) (username apikey : string) (image : image_value) : M unit :=
  check_image image ;;
  resolve_address w username apikey image.

(** The whole script. *)
Definition main (w : world) : M unit :=
  config <- load_config w ;;
  image <- get_image (argv w) ;;
  username <- lift (config_getitem config "username") ;;
  apikey <- lift (config_getitem config "apikey") ;;
  guarded w username apikey image.

(** ** The process *)

Record process : Type := {
  stdout : list out_item;
  stderr : list out_item;
  exit_status : Z;
  requests : list string
}.

(** How the interpreter ends: status 0 after the last statement, the
    code of [SystemExit], a traceback on the standard error and status 1
    for any other exception. *)
Definition finish (r : result unit * state) : process :=
  match r with
  | (Ok _, st) =>
      {| stdout := out st; stderr := err st; exit_status := 0; requests := sent st |}
  | (Raise (SystemExit code), st) =>
      {| stdout := out st; stderr := err st; exit_status := code; requests := sent st |}
  | (Raise e, st) =>
      {| stdout := out st; stderr := err st ++ [Traceback e]; exit_status := 1;
         requests := sent st |}
  end.

Definition run (w : world) : process := finish (main w initial).

(** ** Vocabulary of the statements *)

(** The call to [url] is answered, with any status code, by a body that
    decodes to [v]. *)
Definition answers (w : world) (url : string) (v : pyval) : Prop :=
  exists code, requests_get w url = Some {| status_code := code; content_json := Some v |}.

(** The configuration file holds the credentials and the command line
    yields [image]. *)
Record invocation (w : world) (username apikey : string) (image : image_value) : Prop := {
  inv_config :
    exists config,
      nimbix_yaml w = Some config /\
      config_getitem config "username" = Ok username /\
      config_getitem config "apikey" = Ok apikey;
  inv_image : get_image (argv w) initial = (Ok image, initial)
}.

(** An item of the listing that has an image name. *)
Definition named (e : string * pyval) : Prop :=
  exists v, entry_name (snd e) = Ok v.

(** An item of the listing that has an image name, another one than
    [image]. *)
Definition other_name (image : image_value) (e : string * pyval) : Prop :=
  exists v, entry_name (snd e) = Ok v /\ py_eq v image = false.

(** The job descriptor with image name [name] and nothing else. *)
Definition job (name : string) : pyval :=
  PyDict [("job_api_submission", PyDict [("nae", PyDict [("name", PyStr name)])])].

(** A process that failed without an unhandled exception. *)
Definition fails_cleanly (p : process) : Prop :=
  exit_status p <> 0%Z /\ forall e, ~ In (Traceback e) (stderr p).

(** What the script can see of the answer to [url]: [None] when the
    request raises, else the decoded body. *)
Definition body (w : world) (url : string) : option (option pyval) :=
  option_map content_json (requests_get w url).

(** The exceptions of the script proper: everything but [SystemExit]. *)
Definition is_exit (e : exn) : bool :=
  match e with SystemExit _ => true | _ => false end.

(** A process that reports its failure as the specification wants it:
    non-zero status, a message on the standard error, nothing on the
    standard output. *)
Definition reports_on_stderr (p : process) : Prop :=
  exit_status p <> 0%Z /\ stderr p <> [] /\ stdout p = [].

(** [arg] is the [--image] option: the flag itself, an abbreviation of
    it, or either of them with [=value]. *)
Definition is_image_option (arg : string) : bool :=
  match Argparse.parse_optional arg with
  | Argparse.Optional (Some Argparse.StoreImage, _, _) => true
  | _ => false
  end.

(** ** Sample worlds *)

(** An API that answers the job listing with [jobs] and the connection
    details of job [number] with [connect], for the credentials
    [alice]/[s3cret], and fails on any other URL. *)
Definition api (jobs connect : option response) (number : string)
    : string -> option response :=
  fun url =>
    if String.eqb url (jobs_url "alice" "s3cret") then jobs
    else if String.eqb url (connect_url "alice" "s3cret" number) then connect
    else None.

Definition credentials : option (list (string * string)) :=
  Some [("username", "alice"); ("apikey", "s3cret")].

Definition ok_json (v : pyval) : option response :=
  Some {| status_code := 200; content_json := Some v |}.

(** [ssh.py ng0] against the listing [{"42": {"job_api_submission":
    {"nae": {"name": "ng0"}}}}] and the connection details
    [{"address": "10.0.0.5"}]. *)
Definition world_ng0 : world := {|
  argv := ["ssh.py"; "ng0"];
  nimbix_yaml := credentials;
  requests_get :=
    api (ok_json (PyDict [("42", job "ng0")]))
        (ok_json (PyDict [("address", PyStr "10.0.0.5")])) "42"
|}.

(** The same API asked for an image that no job runs. *)
Definition world_absent : world := {|
  argv := ["ssh.py"; "--image"; "ng1"];
  nimbix_yaml := credentials;
  requests_get := requests_get world_ng0
|}.

(** The same listing, but connection details without [address]. *)
Definition world_no_address : world := {|
  argv := ["ssh.py"; "ng0"];
  nimbix_yaml := credentials;
  requests_get := api (ok_json (PyDict [("42", job "ng0")])) (ok_json (PyDict [])) "42"
|}.

(** An empty image name on the command line. *)
Definition world_empty_image : world := {|
  argv := ["ssh.py"; ""];
  nimbix_yaml := credentials;
  requests_get := requests_get world_ng0
|}.

(** The API refuses the credentials: status 401 and a JSON error body. *)
Definition world_unauthorized : world := {|
  argv := ["ssh.py"; "ng0"];
  nimbix_yaml := credentials;
  requests_get :=
    api (Some {| status_code := 401;
                 content_json := Some (PyDict [("error", PyStr "Invalid apikey")]) |})
        None "42"
|}.

(** [ssh.py --image ng0] with a configuration file that has one more
    key, against an API that gives the answers of [world_ng0] with other
    status codes and also answers one more URL. *)
Definition world_ng0_variant : world := {|
  argv := ["ssh.py"; "--image"; "ng0"];
  nimbix_yaml := Some [("zone", "us-east"); ("username", "alice"); ("apikey", "s3cret")];
  requests_get := fun url =>
    if String.eqb url (jobs_url "alice" "s3cret") then
      Some {| status_code := 203; content_json := Some (PyDict [("42", job "ng0")]) |}
    else if String.eqb url (connect_url "alice" "s3cret" "42") then
      Some {| status_code := 201;
              content_json := Some (PyDict [("address", PyStr "10.0.0.5")]) |}
    else if String.eqb url "https://api.jarvice.com/jarvice/shutdown" then
      Some {| status_code := 200; content_json := None |}
    else None
|}.

(** A listing with three jobs whose image names differ, one only by
    case. *)
Definition listing_three : list (string * pyval) :=
  [("41", job "ng1"); ("42", job "ng0"); ("43", job "NG0")].

(** The exception the script meets when it fetches a URL whose answer
    is [b]: the request itself raises, or the body does not decode. *)
Definition fetch_exn (b : option (option pyval)) : option exn :=
  match b with
  | None => Some RequestException
  | Some None => Some ValueError
  | Some (Some _) => None
  end.

(** The command-line string [--image=v]. *)
Definition image_equals (v : string) : string := "--image=" ++ v.


(** A listing whose second entry has no [job_api_submission], before an
    entry that runs the image. *)
Definition listing_malformed : list (string * pyval) :=
  [("41", job "ng1"); ("42", PyDict []); ("43", job "ng0")].

Definition world_malformed : world := {|
  argv := ["ssh.py"; "ng0"];
  nimbix_yaml := credentials;
  requests_get := api (ok_json (PyDict listing_malformed)) None "43"
|}.

(** The API answers the job listing request with a JSON array. *)
Definition world_array : world := {|
  argv := ["ssh.py"; "ng0"];
  nimbix_yaml := credentials;
  requests_get := api (ok_json (PyList [])) None "42"
|}.

(** The API cannot be reached. *)
Definition world_offline : world := {|
  argv := ["ssh.py"; "ng0"];
  nimbix_yaml := credentials;
  requests_get := fun _ => None
|}.

(** The connection details of job 42 are not JSON. *)
Definition world_connect_garbled : world := {|
  argv := ["ssh.py"; "ng0"];
  nimbix_yaml := credentials;
  requests_get :=
    api (ok_json (PyDict [("42", job "ng0")]))
        (Some {| status_code := 502; content_json := None |}) "42"
|}.

(** No [nimbix.yaml], and a command line asking for help. *)
Definition world_no_config : world := {|
  argv := ["ssh.py"; "--help"; "--help"];
  nimbix_yaml := None;
  requests_get := requests_get world_ng0
|}.

(** A configuration file without [apikey], and an empty image name. *)
Definition world_no_apikey : world := {|
  argv := ["ssh.py"; ""];
  nimbix_yaml := Some [("username", "alice")];
  requests_get := requests_get world_ng0
|}.

(** A command line that [argparse] rejects, with a configuration file
    that has no credentials. *)
Definition world_bad_args : world := {|
  argv := ["ssh.py"; "foo"; "bar"];
  nimbix_yaml := Some [];
  requests_get := requests_get world_ng0
|}.

(** The script called without argument. *)
Definition world_no_args : world := {|
  argv := ["ssh.py"];
  nimbix_yaml := credentials;
  requests_get := requests_get world_ng0
|}.

(** ** Tactics for the sample worlds *)

Ltac invoked :=
  constructor; [eexists; repeat split; reflexivity | reflexivity].

Ltac answered := eexists; reflexivity.

(** ** The search *)

Lemma py_eq_str (v : pyval) (s : string) :
  py_eq v (ImageStr s) = true <-> v = PyStr s.
Proof.
  destruct v; simpl; split; try discriminate.
  - intros H. apply String.eqb_eq in H. now subst.
  - intros H. injection H as ->. apply String.eqb_refl.
Qed.

Lemma search_cons_other image jobnumber info rest target :
  other_name image (jobnumber, info) ->
  search ((jobnumber, info) :: rest) image target = search rest image target.
Proof.
  intros (v & Hname & Hneq). simpl in Hname. simpl.
  rewrite Hname. simpl. now rewrite Hneq.
Qed.

Lemma search_cons_hit image jobnumber info rest target v :
  entry_name info = Ok v -> py_eq v image = true ->
  search ((jobnumber, info) :: rest) image target = Ok (Some jobnumber).
Proof.
  intros Hname Heq. simpl. rewrite Hname. simpl. now rewrite Heq.
Qed.

Lemma search_skip image pre rest target :
  Forall (other_name image) pre ->
  search (pre ++ rest) image target = search rest image target.
Proof.
  induction 1 as [| [jobnumber info] pre Hhd _ IH]; [reflexivity |].
  rewrite <- app_comm_cons, search_cons_other by assumption. exact IH.
Qed.

Lemma search_no_match image items target :
  Forall (other_name image) items ->
  search items image target = Ok target.
Proof.
  intros H. rewrite <- (app_nil_r items), search_skip by assumption. reflexivity.
Qed.

Lemma search_unique image items jobnumber info target :
  Forall named items ->
  In (jobnumber, info) items ->
  entry_name info = Ok (PyStr image) ->
  (forall e, In e items -> entry_name (snd e) = Ok (PyStr image) -> e = (jobnumber, info)) ->
  search items (ImageStr image) target = Ok (Some jobnumber).
Proof.
  intros Hnamed. revert jobnumber info.
  induction Hnamed as [| [k i] items (v & Hv) _ IH]; intros jobnumber info Hin Hname Huniq.
  - destruct Hin.
  - simpl in Hv. destruct (py_eq v (ImageStr image)) eqn:Heq.
    + apply py_eq_str in Heq. subst v.
      assert (E : (k, i) = (jobnumber, info)) by (apply Huniq; [now left | exact Hv]).
      injection E as -> ->.
      eapply search_cons_hit; [exact Hv | now apply py_eq_str].
    + rewrite search_cons_other by (exists v; now split).
      destruct Hin as [E | Hin].
      * injection E as -> ->. rewrite Hname in Hv. injection Hv as <-.
        rewrite (proj2 (py_eq_str _ _) eq_refl) in Heq. discriminate.
      * apply IH with (info := info); [exact Hin | exact Hname |].
        intros e He. apply Huniq. now right.
Qed.

(** C2: in a listing whose entries all carry an image name, if exactly
    one entry has the image name [image] (equality of strings, so case
    matters), the search returns the job number of that entry. *)
Theorem find_job_unique (items : list (string * pyval)) (image jobnumber : string)
    (info : pyval) :
  Forall named items ->
  In (jobnumber, info) items ->
  entry_name info = Ok (PyStr image) ->
  (forall e, In e items -> entry_name (snd e) = Ok (PyStr image) -> e = (jobnumber, info)) ->
  find_job (PyDict items) (ImageStr image) = Ok (Some jobnumber).
Proof.
  intros. unfold find_job. simpl. now apply search_unique with (info := info).
Qed.

Lemma find_job_unique_witness :
  find_job (PyDict listing_three) (ImageStr "ng0") = Ok (Some "42").
Proof.
  apply (find_job_unique listing_three "ng0" "42" (job "ng0")).
  - repeat constructor; eexists; reflexivity.
  - right. now left.
  - reflexivity.
  - intros e [<- | [<- | [<- | []]]] H; [discriminate H | reflexivity | discriminate H].
Defined.

(** C7: the search returns the job number of the first entry that has
    the image name, whatever follows that entry in the listing: further
    entries with the same name, or entries that could not even be
    inspected without an exception. *)
Theorem find_job_first_match (pre post : list (string * pyval)) (image : image_value)
    (jobnumber : string) (info v : pyval) :
  Forall (other_name image) pre ->
  entry_name info = Ok v ->
  py_eq v image = true ->
  find_job (PyDict (pre ++ (jobnumber, info) :: post)) image = Ok (Some jobnumber) /\
  forall post',
    find_job (PyDict (pre ++ (jobnumber, info) :: post')) image
    = find_job (PyDict (pre ++ (jobnumber, info) :: post)) image.
Proof.
  intros Hpre Hname Heq.
  assert (E : forall l, find_job (PyDict (pre ++ (jobnumber, info) :: l)) image
                        = Ok (Some jobnumber)).
  { intros l. unfold find_job. simpl. rewrite search_skip by assumption.
    now apply search_cons_hit with (v := v). }
  split; [apply E |]. intros post'. now rewrite !E.
Qed.

Lemma find_job_first_match_witness :
  find_job (PyDict ([("41", job "ng1")] ++ ("42", job "ng0")
                      :: [("43", job "ng0"); ("44", PyNone)]))
           (ImageStr "ng0")
  = Ok (Some "42").
Proof.
  apply (find_job_first_match [("41", job "ng1")] [("43", job "ng0"); ("44", PyNone)]
           (ImageStr "ng0") "42" (job "ng0") (PyStr "ng0")).
  - repeat constructor. exists (PyStr "ng1"). split; reflexivity.
  - reflexivity.
  - reflexivity.
Defined.

(** ** The pipeline *)

Lemma list_jobs_answers w username apikey v st :
  answers w (jobs_url username apikey) v ->
  list_jobs w username apikey st = (Ok v, send st (jobs_url username apikey)).
Proof.
  intros (code & H). unfold list_jobs, get. simpl. now rewrite H.
Qed.

Lemma get_connection_info_answers w username apikey number v st :
  answers w (connect_url username apikey number) v ->
  get_connection_info w username apikey number st
  = (py_getitem v "address", send st (connect_url username apikey number)).
Proof.
  intros (code & H). unfold get_connection_info, get, lift. simpl. now rewrite H.
Qed.

Lemma resolve_address_answers w username apikey image v st :
  answers w (jobs_url username apikey) v ->
  resolve_address w username apikey image st
  = resolve_listing w username apikey image v (send st (jobs_url username apikey)).
Proof.
  intros H. unfold resolve_address. simpl. now rewrite list_jobs_answers with (v := v).
Qed.

Lemma guarded_passes w username apikey image st :
  image_missing image = false ->
  guarded w username apikey image st = resolve_address w username apikey image st.
Proof.
  intros H. unfold guarded, check_image. simpl. now rewrite H.
Qed.

Lemma main_invocation w username apikey image :
  invocation w username apikey image ->
  main w initial = guarded w username apikey image initial.
Proof.
  intros [(config & Hyaml & Huser & Hkey) Himage].
  unfold main, load_config, lift. rewrite Hyaml. simpl.
  rewrite Himage, Huser, Hkey. reflexivity.
Qed.

Lemma run_invocation w username apikey image :
  invocation w username apikey image ->
  image_missing image = false ->
  run w = finish (resolve_address w username apikey image initial).
Proof.
  intros Hinv Hgiven. unfold run.
  now rewrite main_invocation with (1 := Hinv), guarded_passes.
Qed.

(** ** End to end *)

(** C1: with the listing [{"42": {"job_api_submission": {"nae": {"name":
    "ng0"}}}}], the connection details [{"address": "10.0.0.5"}] and the
    image [ng0], the script prints [10.0.0.5] and nothing else, after
    the two requests, and ends with status 0. *)
Theorem end_to_end (w : world) (username apikey : string) :
  invocation w username apikey (ImageStr "ng0") ->
  answers w (jobs_url username apikey) (PyDict [("42", job "ng0")]) ->
  answers w (connect_url username apikey "42") (PyDict [("address", PyStr "10.0.0.5")]) ->
  run w = {| stdout := [Printed (PyStr "10.0.0.5")];
             stderr := [];
             exit_status := 0;
             requests := [jobs_url username apikey; connect_url username apikey "42"] |}.
Proof.
  intros Hinv Hjobs Hconnect.
  rewrite run_invocation with (1 := Hinv) by reflexivity.
  rewrite resolve_address_answers with (1 := Hjobs).
  unfold resolve_listing, lift. simpl.
  rewrite get_connection_info_answers with (1 := Hconnect). reflexivity.
Qed.

Lemma end_to_end_witness :
  run world_ng0
  = {| stdout := [Printed (PyStr "10.0.0.5")];
       stderr := [];
       exit_status := 0;
       requests := [jobs_url "alice" "s3cret"; connect_url "alice" "s3cret" "42"] |}.
Proof.
  apply (end_to_end world_ng0 "alice" "s3cret"); [invoked | answered | answered].
Defined.

(** ** No job runs the image *)

(** C3: when every entry of the listing has an image name other than
    [image], the search finds no job, the assertion fails and the script
    ends there: the job listing is the only request, nothing is printed,
    the interpreter reports [AssertionError] and exits with status 1. *)
Theorem no_match_assertion (w : world) (username apikey : string) (image : image_value)
    (items : list (string * pyval)) :
  Forall (other_name image) items ->
  answers w (jobs_url username apikey) (PyDict items) ->
  find_job (PyDict items) image = Ok None /\
  (forall st,
      resolve_address w username apikey image st
      = (Raise AssertionError, send st (jobs_url username apikey))) /\
  (invocation w username apikey image ->
   image_missing image = false ->
   run w = {| stdout := [];
              stderr := [Traceback AssertionError];
              exit_status := 1;
              requests := [jobs_url username apikey] |}).
Proof.
  intros Hother Hjobs.
  assert (Hfind : find_job (PyDict items) image = Ok None).
  { unfold find_job. simpl. now apply search_no_match. }
  assert (Hres : forall st,
             resolve_address w username apikey image st
             = (Raise AssertionError, send st (jobs_url username apikey))).
  { intros st. rewrite resolve_address_answers with (1 := Hjobs).
    unfold resolve_listing, lift. simpl. now rewrite Hfind. }
  repeat split; [exact Hfind | exact Hres |].
  intros Hinv Hgiven.
  rewrite run_invocation with (1 := Hinv) (2 := Hgiven), Hres. reflexivity.
Qed.

Lemma no_match_assertion_witness :
  find_job (PyDict [("42", job "ng0")]) (ImageStr "ng1") = Ok None /\
  run world_absent
  = {| stdout := [];
       stderr := [Traceback AssertionError];
       exit_status := 1;
       requests := [jobs_url "alice" "s3cret"] |}.
Proof.
  destruct (no_match_assertion world_absent "alice" "s3cret" (ImageStr "ng1")
              [("42", job "ng0")]) as (Hfind & _ & Hrun).
  - repeat constructor. exists (PyStr "ng0"). split; reflexivity.
  - answered.
  - split; [exact Hfind | apply Hrun; [invoked | reflexivity]].
Defined.

(** ** Connection details without an address *)

(** C4, as amended: when the connection details decode to a value [v]
    without an [address], [res['address']] raises and nothing handles
    it: [KeyError('address')] when [v] is a JSON object, [TypeError]
    otherwise.  The interpreter prints the traceback on the standard
    error and exits with status 1; nothing is printed on the standard
    output, in particular no empty address. *)
Theorem missing_address_uncaught (w : world) (username apikey number : string)
    (image : image_value) (res v : pyval) (e : exn) :
  answers w (connect_url username apikey number) v ->
  py_getitem v "address" = Raise e ->
  (forall st,
      get_connection_info w username apikey number st
      = (Raise e, send st (connect_url username apikey number))) /\
  (e = KeyError "address" \/ e = TypeError) /\
  (forall d, v = PyDict d -> e = KeyError "address") /\
  (invocation w username apikey image ->
   image_missing image = false ->
   answers w (jobs_url username apikey) res ->
   find_job res image = Ok (Some number) ->
   run w = {| stdout := [];
              stderr := [Traceback e];
              exit_status := 1;
              requests := [jobs_url username apikey;
                           connect_url username apikey number] |}).
Proof.
  intros Hconnect Hlacks.
  assert (Hinfo : forall st,
             get_connection_info w username apikey number st
             = (Raise e, send st (connect_url username apikey number))).
  { intros st. rewrite get_connection_info_answers with (1 := Hconnect).
    now rewrite Hlacks. }
  assert (Hdict : forall d, v = PyDict d -> e = KeyError "address").
  { intros d ->. simpl in Hlacks. destruct (dict_get d "address"); congruence. }
  assert (Hkind : e = KeyError "address" \/ e = TypeError).
  { destruct v; try (right; simpl in Hlacks; congruence). left. now apply (Hdict d). }
  repeat split; [exact Hinfo | exact Hkind | exact Hdict |].
  intros Hinv Hgiven Hjobs Hfind.
  rewrite run_invocation with (1 := Hinv) (2 := Hgiven).
  rewrite resolve_address_answers with (1 := Hjobs).
  unfold resolve_listing, lift. simpl. rewrite Hfind, Hinfo.
  destruct Hkind as [-> | ->]; reflexivity.
Qed.

Lemma missing_address_uncaught_witness :
  run world_no_address
  = {| stdout := [];
       stderr := [Traceback (KeyError "address")];
       exit_status := 1;
       requests := [jobs_url "alice" "s3cret"; connect_url "alice" "s3cret" "42"] |}.
Proof.
  apply (missing_address_uncaught world_no_address "alice" "s3cret" "42" (ImageStr "ng0")
           (PyDict [("42", job "ng0")]) (PyDict []) (KeyError "address"));
    [answered | reflexivity | invoked | reflexivity | answered | reflexivity].
Defined.

(** C4, as stated, fails: connection details [{}] are valid JSON without
    [address], and the run ends on an unhandled [KeyError]. *)
Lemma missing_address_is_a_crash : ~ fails_cleanly (run world_no_address).
Proof.
  intros [_ H]. apply (H (KeyError "address")). vm_compute. now left.
Qed.

(** ** The guard on the image name *)

Lemma main_no_request_before_guard w image :
  get_image (argv w) initial = (Ok image, initial) ->
  image_missing image = true ->
  sent (snd (main w initial)) = [] /\
  exists e, fst (main w initial) = Raise e /\
            (e = OSError \/ (exists k, e = KeyError k) \/ e = SystemExit 1).
Proof.
  intros Himage Hmissing. unfold main, load_config, lift, guarded, check_image.
  destruct (nimbix_yaml w) as [config |]; simpl.
  2: { split; [reflexivity |]. exists OSError. auto. }
  rewrite Himage.
  destruct (config_getitem config "username") as [username | e] eqn:Huser.
  2: { unfold config_getitem in Huser. destruct (dict_get config "username"); [discriminate |].
       injection Huser as <-. split; [reflexivity |]. eexists. split; [reflexivity |].
       right. left. now eexists. }
  destruct (config_getitem config "apikey") as [apikey | e] eqn:Hkey.
  2: { unfold config_getitem in Hkey. destruct (dict_get config "apikey"); [discriminate |].
       injection Hkey as <-. split; [reflexivity |]. eexists. split; [reflexivity |].
       right. left. now eexists. }
  rewrite Hmissing. simpl. split; [reflexivity |]. eexists. split; [reflexivity |]. auto.
Qed.

(** C5: when the image is the empty string or [None], the guard prints
    its message and leaves with [sys.exit(1)] before the first request:
    no URL is requested, from whatever state the guard is reached.  For
    a whole run whose command line yields such an image this means no
    request at all and a non-zero exit status, also when the
    configuration file is unusable; with the credentials at hand the
    status is that of the guard. *)
Theorem empty_image_no_request (w : world) (image : image_value) :
  image = ImageStr "" \/ image = ImageNone ->
  (forall username apikey st,
      guarded w username apikey image st
      = (Raise (SystemExit 1),
         {| out := out st ++ [Printed (PyStr "please provide image name")];
            err := err st; sent := sent st |})) /\
  (get_image (argv w) initial = (Ok image, initial) ->
   requests (run w) = [] /\ exit_status (run w) <> 0%Z) /\
  (forall username apikey,
      invocation w username apikey image ->
      run w = {| stdout := [Printed (PyStr "please provide image name")];
                 stderr := [];
                 exit_status := 1;
                 requests := [] |}).
Proof.
  intros Himage.
  assert (Hmissing : image_missing image = true) by (destruct Himage; now subst).
  assert (Hguard : forall username apikey st,
             guarded w username apikey image st
             = (Raise (SystemExit 1),
                {| out := out st ++ [Printed (PyStr "please provide image name")];
                   err := err st; sent := sent st |})).
  { intros. unfold guarded, check_image. rewrite Hmissing. reflexivity. }
  split; [exact Hguard |]. split.
  - intros Hargv.
    destruct (main_no_request_before_guard w image Hargv Hmissing)
      as (Hsent & e & He & Hkind).
    unfold run. destruct (main w initial) as [r st]. simpl in He, Hsent. subst r.
    destruct Hkind as [-> | [(k & ->) | ->]]; simpl; (split; [exact Hsent | discriminate]).
  - intros username apikey Hinv. unfold run.
    rewrite main_invocation with (1 := Hinv), Hguard. reflexivity.
Qed.

Lemma empty_image_no_request_witness :
  requests (run world_empty_image) = [] /\
  run world_empty_image
  = {| stdout := [Printed (PyStr "please provide image name")];
       stderr := [];
       exit_status := 1;
       requests := [] |}.
Proof.
  destruct (empty_image_no_request world_empty_image (ImageStr "")) as (_ & Hany & Hrun).
  - now left.
  - split; [apply Hany; reflexivity | apply (Hrun "alice" "s3cret"); invoked].
Defined.

(** ** The status code *)

(** C6: the status code of the answer to the job listing request is
    never looked at.  Whatever the code, a body that decodes to [v] is
    the result of the listing step, and the rest of the script runs on
    [v] as the job listing. *)
Theorem status_code_not_validated (w : world) (username apikey : string)
    (image : image_value) (code : Z) (v : pyval) (st : state) :
  requests_get w (jobs_url username apikey)
  = Some {| status_code := code; content_json := Some v |} ->
  list_jobs w username apikey st = (Ok v, send st (jobs_url username apikey)) /\
  resolve_address w username apikey image st
  = resolve_listing w username apikey image v (send st (jobs_url username apikey)).
Proof.
  intros H.
  assert (Hjobs : answers w (jobs_url username apikey) v) by (now exists code).
  split; [now apply list_jobs_answers | now apply resolve_address_answers].
Qed.

Lemma status_code_not_validated_witness :
  list_jobs world_unauthorized "alice" "s3cret" initial
  = (Ok (PyDict [("error", PyStr "Invalid apikey")]),
     send initial (jobs_url "alice" "s3cret")) /\
  resolve_address world_unauthorized "alice" "s3cret" (ImageStr "ng0") initial
  = resolve_listing world_unauthorized "alice" "s3cret" (ImageStr "ng0")
      (PyDict [("error", PyStr "Invalid apikey")])
      (send initial (jobs_url "alice" "s3cret")).
Proof.
  apply (status_code_not_validated world_unauthorized "alice" "s3cret" (ImageStr "ng0") 401).
  reflexivity.
Defined.

(** The error body of the refused request goes through the search as if
    it were a job listing: its entry is a string, which cannot be
    indexed. *)
Example unauthorized_run :
  run world_unauthorized
  = {| stdout := [];
       stderr := [Traceback TypeError];
       exit_status := 1;
       requests := [jobs_url "alice" "s3cret"] |}.
Proof. reflexivity. Qed.

(** ** Determinism *)

Lemma list_jobs_agree w1 w2 username apikey st :
  body w1 (jobs_url username apikey) = body w2 (jobs_url username apikey) ->
  list_jobs w1 username apikey st = list_jobs w2 username apikey st.
Proof.
  unfold body, list_jobs, get, lift, json_loads. simpl.
  destruct (requests_get w1 _) as [[c1 b1] |], (requests_get w2 _) as [[c2 b2] |];
    simpl; intros H; inversion H; subst; reflexivity.
Qed.

Lemma get_connection_info_agree w1 w2 username apikey number st :
  body w1 (connect_url username apikey number) = body w2 (connect_url username apikey number) ->
  get_connection_info w1 username apikey number st
  = get_connection_info w2 username apikey number st.
Proof.
  unfold body, get_connection_info, get, lift, json_loads. simpl.
  destruct (requests_get w1 _) as [[c1 b1] |], (requests_get w2 _) as [[c2 b2] |];
    simpl; intros H; inversion H; subst; reflexivity.
Qed.

Lemma resolve_address_agree w1 w2 username apikey image st :
  body w1 (jobs_url username apikey) = body w2 (jobs_url username apikey) ->
  (forall number,
      body w1 (connect_url username apikey number)
      = body w2 (connect_url username apikey number)) ->
  resolve_address w1 username apikey image st = resolve_address w2 username apikey image st.
Proof.
  intros Hjobs Hconnect. unfold resolve_address. simpl.
  rewrite list_jobs_agree with (1 := Hjobs).
  destruct (list_jobs w2 username apikey st) as [[res | e] st']; [| reflexivity].
  unfold resolve_listing, lift. simpl.
  destruct (find_job res image) as [[number |] | e]; try reflexivity.
  now rewrite get_connection_info_agree with (1 := Hconnect number).
Qed.

(** C8: two runs with the same credentials and the same image, in which
    the API gives the same job listing and the same connection details
    (the same decoded bodies, or the same failure to answer or to
    decode), end alike: same standard output, hence same address, same
    standard error, same exit status, same requests.  The runs may
    differ in the form of the command line, in the rest of the
    configuration file, in the status codes and in what the API would
    answer to other URLs. *)
Theorem run_deterministic (w1 w2 : world) (username apikey : string) (image : image_value) :
  invocation w1 username apikey image ->
  invocation w2 username apikey image ->
  body w1 (jobs_url username apikey) = body w2 (jobs_url username apikey) ->
  (forall number,
      body w1 (connect_url username apikey number)
      = body w2 (connect_url username apikey number)) ->
  run w1 = run w2.
Proof.
  intros Hinv1 Hinv2 Hjobs Hconnect. unfold run.
  rewrite main_invocation with (1 := Hinv1), main_invocation with (1 := Hinv2).
  unfold guarded, check_image. simpl.
  destruct (image_missing image); [reflexivity |]. simpl.
  now rewrite resolve_address_agree with (w2 := w2).
Qed.

Lemma run_deterministic_witness : run world_ng0 = run world_ng0_variant.
Proof.
  apply (run_deterministic world_ng0 world_ng0_variant "alice" "s3cret" (ImageStr "ng0"));
    [invoked | invoked | reflexivity |].
  intros number. unfold body. cbn.
  destruct (String.eqb number "42"); reflexivity.
Defined.

(** ** How a run fails *)

Lemma py_getitem_raise v key e :
  py_getitem v key = Raise e -> is_exit e = false.
Proof.
  destruct v; simpl; try (intros H; injection H as <-; reflexivity).
  destruct (dict_get d key); [discriminate |]. intros H. now injection H as <-.
Qed.

Lemma entry_name_raise info e :
  entry_name info = Raise e -> is_exit e = false.
Proof.
  unfold entry_name. simpl.
  destruct (py_getitem info _) as [sub |] eqn:H1; [| intros H; injection H as <-; eauto using py_getitem_raise].
  destruct (py_getitem sub _) as [nae |] eqn:H2; [| intros H; injection H as <-; eauto using py_getitem_raise].
  apply py_getitem_raise.
Qed.

Lemma search_raise items image target e :
  search items image target = Raise e -> is_exit e = false.
Proof.
  induction items as [| [jobnumber info] rest IH]; simpl; [discriminate |].
  destruct (entry_name info) as [name |] eqn:Hname.
  - destruct (py_eq name image); [discriminate | exact IH].
  - intros H. injection H as <-. eauto using entry_name_raise.
Qed.

Lemma find_job_raise res image e :
  find_job res image = Raise e -> is_exit e = false.
Proof.
  unfold find_job.
  destruct res; simpl; try (intros H; injection H as <-; reflexivity).
  apply search_raise.
Qed.

Lemma get_connection_info_raise w username apikey number st e st' :
  get_connection_info w username apikey number st = (Raise e, st') ->
  is_exit e = false /\ out st' = out st /\ err st' = err st.
Proof.
  unfold get_connection_info, get, lift, json_loads. simpl.
  destruct (requests_get w _) as [[code [v |]] |]; simpl;
    intros H; injection H as H <-; try (subst e; now repeat split).
  repeat split. eauto using py_getitem_raise.
Qed.

Lemma resolve_address_raise w username apikey image st e st' :
  resolve_address w username apikey image st = (Raise e, st') ->
  is_exit e = false /\ out st' = out st /\ err st' = err st.
Proof.
  unfold resolve_address, list_jobs, get, lift, json_loads. simpl.
  destruct (requests_get w _) as [[code [res |]] |]; simpl;
    try (intros H; injection H as <- <-; now repeat split).
  unfold resolve_listing, lift. simpl.
  destruct (find_job res image) as [[number |] | e'] eqn:Hfind;
    try (intros H; injection H as <- <-; repeat split; eauto using find_job_raise).
  destruct (get_connection_info w username apikey number _) as [[ip | e'] st1] eqn:Hinfo.
  - discriminate.
  - intros H. injection H as <- <-.
    now apply get_connection_info_raise in Hinfo.
Qed.

Lemma get_image_cases argv st r st' :
  get_image argv st = (r, st') ->
  (exists image, r = Ok image /\ st' = st) \/
  (r = Raise IndexError /\ st' = st) \/
  (r = Raise (SystemExit 0) /\
   st' = {| out := out st ++ [ArgparseHelp]; err := err st; sent := sent st |}) \/
  (r = Raise (SystemExit 2) /\
   st' = {| out := out st; err := err st ++ [ArgparseUsage]; sent := sent st |}).
Proof.
  unfold get_image.
  destruct (2 <? length argv)%nat.
  - destruct (Argparse.parse_args "ng0" (tl argv));
      cbv [bind ret Monad_M write_out write_err sys_exit raise];
      intros H; injection H as <- <-; eauto 6.
  - destruct (nth_error argv 1); cbv [ret Monad_M raise];
      intros H; injection H as <- <-; eauto 6.
Qed.

Lemma config_getitem_raise config key e :
  config_getitem config key = Raise e -> is_exit e = false.
Proof.
  unfold config_getitem. destruct (dict_get config key); [discriminate |].
  intros H. now injection H as <-.
Qed.

(** The ways [main] can end on an exception. *)
Lemma main_raise_cases w e st :
  main w initial = (Raise e, st) ->
  (is_exit e = false /\ out st = [] /\ err st = []) \/
  (e = SystemExit 0 /\ out st = [ArgparseHelp] /\ err st = []) \/
  (e = SystemExit 2 /\ out st = [] /\ err st = [ArgparseUsage]) \/
  (e = SystemExit 1 /\ out st = [Printed (PyStr "please provide image name")] /\
   err st = [] /\ sent st = []).
Proof.
  unfold main, load_config.
  destruct (nimbix_yaml w) as [config |]; simpl.
  2: { unfold raise. intros H. injection H as <- <-. now left. }
  destruct (get_image (argv w) initial) as [r st1] eqn:Himage.
  apply get_image_cases in Himage.
  destruct Himage as [(image & -> & ->) | [(-> & ->) | [(-> & ->) | (-> & ->)]]];
    try (intros H; injection H as <- <-; simpl; auto 6).
  unfold lift.
  destruct (config_getitem config "username") as [username | e1] eqn:Huser.
  2: { intros H. injection H as <- <-. left. eauto using config_getitem_raise. }
  destruct (config_getitem config "apikey") as [apikey | e1] eqn:Hkey.
  2: { intros H. injection H as <- <-. left. eauto using config_getitem_raise. }
  unfold guarded, check_image. simpl.
  destruct (image_missing image); simpl.
  - unfold sys_exit, raise. intros H. injection H as <- <-. simpl. auto 7.
  - intros H. apply resolve_address_raise in H. now left.
Qed.

(** C9, as amended: a run that ends on an exception other than
    [sys.exit(0)] has a non-zero exit status.  The exit of the
    empty-image guard, [sys.exit(1)], leaves its message on the standard
    output and nothing on the standard error.  Every other failure leaves
    the standard output empty and writes on the standard error: the
    usage message of [argparse] with status 2, or the traceback of the
    uncaught exception with status 1. *)
Theorem failing_run_report (w : world) (e : exn) (st : state) :
  main w initial = (Raise e, st) ->
  e <> SystemExit 0 ->
  exit_status (run w) <> 0%Z /\
  match e with
  | SystemExit 1 =>
      stdout (run w) = [Printed (PyStr "please provide image name")] /\
      stderr (run w) = [] /\ requests (run w) = []
  | SystemExit _ =>
      stdout (run w) = [] /\ stderr (run w) = [ArgparseUsage] /\
      exit_status (run w) = 2%Z
  | _ =>
      stdout (run w) = [] /\ stderr (run w) = [Traceback e] /\
      exit_status (run w) = 1%Z
  end.
Proof.
  intros Hmain Hfail. unfold run. rewrite Hmain.
  destruct (main_raise_cases w e st Hmain)
    as [(Hexn & Hout & Herr) | [(-> & _) | [(-> & Hout & Herr) | (-> & Hout & Herr & Hsent)]]].
  - destruct e; try discriminate; simpl; rewrite Hout, Herr; now repeat split.
  - congruence.
  - simpl. now repeat split.
  - simpl. now repeat split.
Qed.

Lemma failing_run_report_witness :
  exit_status (run world_empty_image) <> 0%Z /\
  stdout (run world_empty_image) = [Printed (PyStr "please provide image name")] /\
  stderr (run world_empty_image) = [] /\
  requests (run world_empty_image) = [].
Proof.
  apply (failing_run_report world_empty_image (SystemExit 1)
           {| out := [Printed (PyStr "please provide image name")]; err := []; sent := [] |});
    [reflexivity | discriminate].
Defined.

(** C9, as stated, fails: the run with an empty image name fails with
    its message on the standard output and nothing on the standard
    error. *)
Lemma empty_image_message_on_stdout : ~ reports_on_stderr (run world_empty_image).
Proof.
  intros (_ & Herr & _). apply Herr. reflexivity.
Qed.

(** ** The command line *)

Lemma lookup_short c a :
  Argparse.lookup (String "-"%char (String c "")) Argparse.option_string_actions = Some a ->
  a = Argparse.Help.
Proof.
  destruct c as [[] [] [] [] [] [] [] []]; vm_compute; congruence.
Qed.

(** Starting from [help], the loop on the explicit argument only ever
    meets [help]: it ends on an error or with [help] first in line. *)
Lemma explicit_loop_help explicit_arg : forall option_string,
  match Argparse.explicit_loop Argparse.Help option_string explicit_arg with
  | Argparse.ChainError => True
  | Argparse.ChainArgs _ => False
  | Argparse.ChainOpen tuples last =>
      last = Argparse.Help /\
      forall image, Argparse.take_actions (tuples ++ [(last, [])]) image = None
  end.
Proof.
  induction explicit_arg as [| c rest IH]; intros option_string;
    cbn [Argparse.explicit_loop Argparse.nargs];
    destruct (Argparse.second_is_dash option_string); try exact I.
  destruct (Argparse.lookup _ _) as [a' |] eqn:Hlookup; [| exact I].
  apply lookup_short in Hlookup. subst a'.
  destruct rest as [| c' rest']; [now split |].
  specialize (IH (String "-"%char (String c ""))).
  destruct (Argparse.explicit_loop Argparse.Help _ (String c' rest')); simpl; auto.
  now split.
Qed.

(** No namespace comes out of a command line once [help] is taken. *)
Lemma consume_help arg option_string explicit_arg rest image extras r :
  Argparse.consume
    ((arg, Argparse.SymO (Some Argparse.Help, option_string, explicit_arg)) :: rest)
    image extras
  <> Argparse.Namespace r.
Proof.
  cbn [Argparse.consume]. destruct explicit_arg as [e |]; [| discriminate].
  pose proof (explicit_loop_help e option_string) as H.
  destruct (Argparse.explicit_loop Argparse.Help option_string e) as [| tuples | tuples last];
    [discriminate | contradiction |].
  destruct H as (-> & Hnone). cbn [Argparse.nargs]. now rewrite Hnone.
Qed.

Lemma explicit_loop_image option_string explicit_arg :
  Argparse.explicit_loop Argparse.StoreImage option_string explicit_arg
  = Argparse.ChainArgs [(Argparse.StoreImage, [explicit_arg])].
Proof. now destruct explicit_arg. Qed.

(** No namespace comes out of a command line with a string that no
    option takes. *)
Lemma consume_extras n : forall items image r,
  (length items <= n)%nat ->
  Argparse.consume items image true <> Argparse.Namespace r.
Proof.
  induction n as [| n IH]; intros items image r Hlen.
  - destruct items; [discriminate | simpl in Hlen; lia].
  - destruct items as [| [arg y] rest]; [discriminate |].
    simpl in Hlen. assert (Hrest : (length rest <= n)%nat) by lia.
    destruct y as [[[[a |] option_string] explicit_arg] | |];
      try (simpl; now apply IH).
    destruct a; [apply consume_help |].
    cbn [Argparse.consume].
    destruct explicit_arg as [e |].
    + rewrite explicit_loop_image. simpl. now apply IH.
    + simpl. destruct rest as [| [v []] rest']; try discriminate.
      apply IH. simpl in Hrest. lia.
Qed.

Lemma classify_head arg rest items :
  Argparse.classify (arg :: rest) = Some items ->
  exists y items',
    items = (arg, y) :: items' /\
    forall t, y = Argparse.SymO t -> Argparse.parse_optional arg = Argparse.Optional t.
Proof.
  simpl. destruct (String.eqb arg "--").
  - intros H. injection H as <-. do 2 eexists. split; [reflexivity | discriminate].
  - destruct (Argparse.parse_optional arg) as [| t |]; [| | discriminate];
      destruct (Argparse.classify rest) as [items' |]; simpl; try discriminate;
      intros H; injection H as <-; do 2 eexists; (split; [reflexivity |]);
      congruence.
Qed.

(** A command line that [parse_args] accepts begins with the [--image]
    option. *)
Lemma parse_args_begins_with_image default arg rest image :
  Argparse.parse_args default (arg :: rest) = Argparse.Namespace image ->
  is_image_option arg = true.
Proof.
  unfold Argparse.parse_args.
  destruct (Argparse.classify (arg :: rest)) as [items |] eqn:Hclassify; [| discriminate].
  apply classify_head in Hclassify. destruct Hclassify as (y & items' & -> & Hy).
  destruct y as [[[[a |] option_string] explicit_arg] | |];
    try (simpl; intros H; now apply consume_extras with (n := length items') in H).
  destruct a.
  - intros H. now apply consume_help in H.
  - intros _. unfold is_image_option. now rewrite (Hy _ eq_refl).
Qed.

Lemma not_separator v :
  Argparse.parse_optional v = Argparse.Positional -> String.eqb v "--" = false.
Proof.
  intros H. destruct (String.eqb v "--") eqn:E; [| reflexivity].
  apply String.eqb_eq in E. subst v. discriminate.
Qed.

Lemma classify_image_value v :
  Argparse.parse_optional v = Argparse.Positional ->
  Argparse.classify ["--image"; v]
  = Some [("--image", Argparse.SymO (Some Argparse.StoreImage, "--image", None));
          (v, Argparse.SymA)].
Proof.
  intros H. cbn [Argparse.classify].
  rewrite (not_separator v H), H.
  change (String.eqb "--image" "--") with false.
  change (Argparse.parse_optional "--image")
    with (Argparse.Optional (Some Argparse.StoreImage, "--image", None)).
  reflexivity.
Qed.

Lemma parse_args_image_value default v :
  Argparse.parse_optional v = Argparse.Positional ->
  Argparse.parse_args default ["--image"; v] = Argparse.Namespace (ImageStr v).
Proof.
  intros H. unfold Argparse.parse_args. rewrite classify_image_value by assumption.
  cbn [Argparse.consume Argparse.nargs app Argparse.take_actions].
  unfold Argparse.get_values. cbn [Argparse.remove_first_dashes].
  now rewrite (not_separator v H).
Qed.

(** C10, as amended: with exactly one argument the script takes that
    argument verbatim as the image, whatever it looks like, and with
    none it fails on [sys.argv[1]].  With two or more arguments the
    image comes from [argparse], and then only from an [--image] option:
    [--image v] gives [v] when [v] does not look like an option, any
    accepted command line has the option, and a command line without it
    never yields the default [ng0] but ends the script in [argparse],
    with the help text and status 0 or with a usage error and
    status 2. *)
Theorem argv_dispatch (prog : string) (st : state) :
  (forall a, get_image [prog; a] st = (Ok (ImageStr a), st)) /\
  get_image [prog] st = (Raise IndexError, st) /\
  (forall v,
      Argparse.parse_optional v = Argparse.Positional ->
      get_image [prog; "--image"; v] st = (Ok (ImageStr v), st)) /\
  (forall args,
      (2 <= length args)%nat ->
      (forall image st',
          get_image (prog :: args) st = (Ok image, st') ->
          exists arg, In arg args /\ is_image_option arg = true) /\
      ((forall arg, In arg args -> is_image_option arg = false) ->
       get_image (prog :: args) st
       = (Raise (SystemExit 0),
          {| out := out st ++ [ArgparseHelp]; err := err st; sent := sent st |}) \/
       get_image (prog :: args) st
       = (Raise (SystemExit 2),
          {| out := out st; err := err st ++ [ArgparseUsage]; sent := sent st |}))).
Proof.
  split; [reflexivity |]. split; [reflexivity |]. split.
  { intros v Hv. unfold get_image. cbn [length Nat.ltb Nat.leb tl].
    now rewrite parse_args_image_value. }
  intros args Hlen.
  assert (Hbranch : (2 <? length (prog :: args))%nat = true)
    by (apply Nat.ltb_lt; simpl; lia).
  assert (Himage : forall image st',
             get_image (prog :: args) st = (Ok image, st') ->
             exists arg, In arg args /\ is_image_option arg = true).
  { intros image st'. unfold get_image. rewrite Hbranch.
    destruct args as [| arg rest]; [simpl in Hlen; lia |]. cbn [tl].
    destruct (Argparse.parse_args "ng0" (arg :: rest)) as [image' | |] eqn:Hparse;
      cbv [bind ret Monad_M write_out write_err sys_exit raise];
      [| discriminate | discriminate].
    intros _. exists arg. split; [now left |].
    now apply parse_args_begins_with_image with (1 := Hparse). }
  split; [exact Himage |].
  intros Hnone.
  destruct (get_image (prog :: args) st) as [r st'] eqn:Hget.
  destruct (get_image_cases _ _ _ _ Hget)
    as [(image & -> & ->) | [(-> & ->) | [(-> & ->) | (-> & ->)]]]; auto.
  - destruct (Himage _ _ eq_refl) as (arg & Hin & Hyes).
    rewrite (Hnone arg Hin) in Hyes. discriminate.
  - unfold get_image in Hget. rewrite Hbranch in Hget.
    destruct (Argparse.parse_args "ng0" (tl (prog :: args)));
      cbv [bind ret Monad_M write_out write_err sys_exit raise] in Hget;
      discriminate.
Qed.

(** An explicit argument [--] is removed by [_get_values], which leaves
    the image an empty list. *)
Example image_can_be_a_list :
  get_image ["ssh.py"; "--image"; "ng0"; "--image=--"] initial
  = (Ok (ImageList []), initial).
Proof. reflexivity. Qed.

Lemma argv_dispatch_witness :
  get_image ["ssh.py"; "--image=ng1"] initial = (Ok (ImageStr "--image=ng1"), initial) /\
  get_image ["ssh.py"; "--image"; "ng1"] initial = (Ok (ImageStr "ng1"), initial) /\
  (get_image ["ssh.py"; "foo"; "bar"] initial
   = (Raise (SystemExit 0), {| out := [ArgparseHelp]; err := []; sent := [] |}) \/
   get_image ["ssh.py"; "foo"; "bar"] initial
   = (Raise (SystemExit 2), {| out := []; err := [ArgparseUsage]; sent := [] |})).
Proof.
  destruct (argv_dispatch "ssh.py" initial) as (Hone & _ & Hflag & Hmore).
  split; [apply Hone |]. split; [apply Hflag; reflexivity |].
  apply (Hmore ["foo"; "bar"]).
  - simpl. lia.
  - intros arg [<- | [<- | []]]; reflexivity.
Defined.

(** C10, as stated, fails: [ssh.py foo bar] has two arguments and no
    [--image] flag, yet the image is not [ng0]: [argparse] rejects the
    command line and the script exits with status 2. *)
Lemma missing_flag_is_rejected :
  ~ (forall argv,
        (2 < length argv)%nat ->
        (forall arg, In arg (tl argv) -> is_image_option arg = false) ->
        get_image argv initial = (Ok (ImageStr "ng0"), initial)).
Proof.
  intros H. specialize (H ["ssh.py"; "foo"; "bar"]).
  assert (E : get_image ["ssh.py"; "foo"; "bar"] initial
              = (Raise (SystemExit 2), {| out := []; err := [ArgparseUsage]; sent := [] |}))
    by reflexivity.
  rewrite E in H. discriminate H.
  - simpl. lia.
  - intros arg [<- | [<- | []]]; reflexivity.
Qed.


(** ** More on the search *)

Lemma search_some_inv image items target number :
  search items image target = Ok (Some number) ->
  target = Some number /\ Forall (other_name image) items \/
  exists pre info post v,
    items = pre ++ (number, info) :: post /\
    Forall (other_name image) pre /\
    entry_name info = Ok v /\ py_eq v image = true.
Proof.
  induction items as [| [jobnumber info] rest IH]; simpl.
  - intros H. injection H as ->. left. now split.
  - destruct (entry_name info) as [name |] eqn:Hname; [| discriminate].
    destruct (py_eq name image) eqn:Heq.
    + intros H. injection H as ->. right.
      exists [], info, rest, name. now repeat split.
    + intros H. assert (Hhd : other_name image (jobnumber, info)) by (exists name; now split).
      destruct (IH H) as [(Ht & Hall) | (pre & info' & post & v & -> & Hpre & Hv & Hm)].
      * left. split; [exact Ht | now constructor].
      * right. exists ((jobnumber, info) :: pre), info', post, v.
        repeat split; try assumption. now constructor.
Qed.

Lemma search_none_inv image items target :
  search items image target = Ok None ->
  target = None /\ Forall (other_name image) items.
Proof.
  induction items as [| [jobnumber info] rest IH]; simpl.
  - intros H. injection H as ->. now split.
  - destruct (entry_name info) as [name |] eqn:Hname; [| discriminate].
    destruct (py_eq name image) eqn:Heq; [discriminate |].
    intros H. destruct (IH H) as (Ht & Hall). split; [exact Ht |].
    constructor; [exists name; now split | exact Hall].
Qed.

Lemma find_job_dict res image r :
  find_job res image = Ok r -> exists items, res = PyDict items.
Proof.
  destruct res; try discriminate. intros _. now eexists.
Qed.

(** X2: a job number returned by the search is the key of an entry of
    the listing whose image name equals the image, and every entry
    before it has a name that differs. *)
Theorem find_job_sound (res : pyval) (image : image_value) (number : string) :
  find_job res image = Ok (Some number) ->
  exists pre info post v,
    res = PyDict (pre ++ (number, info) :: post) /\
    Forall (other_name image) pre /\
    entry_name info = Ok v /\ py_eq v image = true.
Proof.
  intros H. destruct (find_job_dict _ _ _ H) as (items & ->).
  unfold find_job in H. simpl in H.
  destruct (search_some_inv _ _ _ _ H) as [(Habs & _) | (pre & info & post & v & -> & Hrest)].
  - discriminate.
  - now exists pre, info, post, v.
Qed.

Lemma find_job_sound_witness :
  exists pre info post v,
    PyDict listing_three = PyDict (pre ++ ("42", info) :: post) /\
    Forall (other_name (ImageStr "ng0")) pre /\
    entry_name info = Ok v /\ py_eq v (ImageStr "ng0") = true.
Proof.
  apply (find_job_sound (PyDict listing_three) (ImageStr "ng0") "42"). reflexivity.
Defined.

(** X3: the search ends without a job only on a listing that is a JSON
    object all of whose entries have an image name other than the
    image. *)
Theorem find_job_none (res : pyval) (image : image_value) :
  find_job res image = Ok None ->
  exists items, res = PyDict items /\ Forall (other_name image) items.
Proof.
  intros H. destruct (find_job_dict _ _ _ H) as (items & ->).
  exists items. split; [reflexivity |].
  unfold find_job in H. simpl in H. now apply search_none_inv in H.
Qed.

Lemma find_job_none_witness :
  exists items, PyDict listing_three = PyDict items /\
                Forall (other_name (ImageStr "ng2")) items.
Proof.
  apply (find_job_none (PyDict listing_three) (ImageStr "ng2")). reflexivity.
Defined.

Lemma search_stops image pre key info post target e :
  Forall (other_name image) pre ->
  entry_name info = Raise e ->
  search (pre ++ (key, info) :: post) image target = Raise e.
Proof.
  intros Hpre Hinfo. rewrite search_skip by assumption. simpl. now rewrite Hinfo.
Qed.

Lemma run_resolve_raise w username apikey image e st :
  invocation w username apikey image ->
  image_missing image = false ->
  resolve_address w username apikey image initial = (Raise e, st) ->
  run w = {| stdout := []; stderr := [Traceback e]; exit_status := 1;
             requests := sent st |}.
Proof.
  intros Hinv Hgiven Hres.
  rewrite run_invocation with (1 := Hinv) (2 := Hgiven), Hres.
  destruct (resolve_address_raise _ _ _ _ _ _ _ Hres) as (Hexn & Hout & Herr).
  simpl in Hout, Herr. destruct e; try discriminate; simpl; now rewrite Hout, Herr.
Qed.

(** X4: the search inspects the entries in order and an entry without
    [job_api_submission.nae.name] ends it with the exception of the
    failed lookup, a [KeyError] or a [TypeError], also when a later entry
    has the image name.  The run ends on that exception after the job
    listing request, without asking for any connection details. *)
Theorem malformed_entry_stops_search (w : world) (username apikey : string)
    (image : image_value) (pre post : list (string * pyval)) (key : string)
    (info : pyval) (e : exn) :
  Forall (other_name image) pre ->
  entry_name info = Raise e ->
  find_job (PyDict (pre ++ (key, info) :: post)) image = Raise e /\
  (e = TypeError \/ exists k, e = KeyError k) /\
  (invocation w username apikey image ->
   image_missing image = false ->
   answers w (jobs_url username apikey) (PyDict (pre ++ (key, info) :: post)) ->
   run w = {| stdout := [];
              stderr := [Traceback e];
              exit_status := 1;
              requests := [jobs_url username apikey] |}).
Proof.
  intros Hpre Hinfo.
  assert (Hfind : find_job (PyDict (pre ++ (key, info) :: post)) image = Raise e).
  { unfold find_job. simpl. now apply search_stops. }
  split; [exact Hfind |]. split.
  - unfold entry_name in Hinfo. simpl in Hinfo.
    assert (Hget : forall v k e', py_getitem v k = Raise e' ->
                                  e' = TypeError \/ exists k', e' = KeyError k').
    { intros v k e'. destruct v; simpl; try (intros H; injection H as <-; now left).
      destruct (dict_get d k); [discriminate |]. intros H. injection H as <-. eauto. }
    destruct (py_getitem info _) as [sub |] eqn:H1;
      [| injection Hinfo as <-; eauto].
    destruct (py_getitem sub _) as [nae |] eqn:H2;
      [| injection Hinfo as <-; eauto].
    eauto.
  - intros Hinv Hgiven Hjobs.
    rewrite run_resolve_raise
      with (1 := Hinv) (2 := Hgiven) (e := e) (st := send initial (jobs_url username apikey)).
    + reflexivity.
    + rewrite resolve_address_answers with (1 := Hjobs).
      unfold resolve_listing, lift. simpl. now rewrite Hfind.
Qed.

Lemma malformed_entry_stops_search_witness :
  find_job (PyDict listing_malformed) (ImageStr "ng0")
  = Raise (KeyError "job_api_submission") /\
  run world_malformed
  = {| stdout := [];
       stderr := [Traceback (KeyError "job_api_submission")];
       exit_status := 1;
       requests := [jobs_url "alice" "s3cret"] |}.
Proof.
  destruct (malformed_entry_stops_search world_malformed "alice" "s3cret" (ImageStr "ng0")
              [("41", job "ng1")] [("43", job "ng0")] "42" (PyDict [])
              (KeyError "job_api_submission")) as (Hfind & _ & Hrun).
  - repeat constructor. exists (PyStr "ng1"). split; reflexivity.
  - reflexivity.
  - split; [exact Hfind | apply Hrun; [invoked | reflexivity | answered]].
Defined.

(** X5: a job listing that decodes to anything but a JSON object (an
    array, a string, a number, [null]) has no [items] method: the run
    ends on [AttributeError] after the job listing request. *)
Theorem listing_not_an_object (w : world) (username apikey : string)
    (image : image_value) (res : pyval) :
  (forall items, res <> PyDict items) ->
  find_job res image = Raise AttributeError /\
  (invocation w username apikey image ->
   image_missing image = false ->
   answers w (jobs_url username apikey) res ->
   run w = {| stdout := [];
              stderr := [Traceback AttributeError];
              exit_status := 1;
              requests := [jobs_url username apikey] |}).
Proof.
  intros Hres.
  assert (Hfind : find_job res image = Raise AttributeError).
  { destruct res; try reflexivity. now destruct (Hres d). }
  split; [exact Hfind |]. intros Hinv Hgiven Hjobs.
  rewrite run_resolve_raise
    with (1 := Hinv) (2 := Hgiven) (e := AttributeError)
         (st := send initial (jobs_url username apikey)).
  - reflexivity.
  - rewrite resolve_address_answers with (1 := Hjobs).
    unfold resolve_listing, lift. simpl. now rewrite Hfind.
Qed.

Lemma listing_not_an_object_witness :
  run world_array
  = {| stdout := [];
       stderr := [Traceback AttributeError];
       exit_status := 1;
       requests := [jobs_url "alice" "s3cret"] |}.
Proof.
  apply (listing_not_an_object world_array "alice" "s3cret" (ImageStr "ng0") (PyList []));
    [discriminate | invoked | reflexivity | answered].
Defined.

(** ** More on the pipeline *)



Lemma list_jobs_fetch_exn w username apikey e st :
  fetch_exn (body w (jobs_url username apikey)) = Some e ->
  list_jobs w username apikey st = (Raise e, send st (jobs_url username apikey)).
Proof.
  unfold body, list_jobs, get, lift, json_loads. simpl.
  destruct (requests_get w _) as [[code [v |]] |]; simpl;
    intros H; try discriminate; now injection H as <-.
Qed.

Lemma get_connection_info_fetch_exn w username apikey number e st :
  fetch_exn (body w (connect_url username apikey number)) = Some e ->
  get_connection_info w username apikey number st
  = (Raise e, send st (connect_url username apikey number)).
Proof.
  unfold body, get_connection_info, get, lift, json_loads. simpl.
  destruct (requests_get w _) as [[code [v |]] |]; simpl;
    intros H; try discriminate; now injection H as <-.
Qed.

(** X6: when the job listing request raises, or its answer does not
    decode, the run ends on that exception ([RequestException], respectively
    [ValueError]) with status 1; the job listing URL is the only one
    requested and nothing is printed. *)
Theorem jobs_fetch_failure (w : world) (username apikey : string)
    (image : image_value) (e : exn) :
  invocation w username apikey image ->
  image_missing image = false ->
  fetch_exn (body w (jobs_url username apikey)) = Some e ->
  run w = {| stdout := [];
             stderr := [Traceback e];
             exit_status := 1;
             requests := [jobs_url username apikey] |}.
Proof.
  intros Hinv Hgiven Hfetch.
  rewrite run_resolve_raise
    with (1 := Hinv) (2 := Hgiven) (e := e) (st := send initial (jobs_url username apikey)).
  - reflexivity.
  - unfold resolve_address. simpl. now rewrite list_jobs_fetch_exn with (1 := Hfetch).
Qed.

Lemma jobs_fetch_failure_witness :
  run world_offline
  = {| stdout := [];
       stderr := [Traceback RequestException];
       exit_status := 1;
       requests := [jobs_url "alice" "s3cret"] |}.
Proof.
  apply (jobs_fetch_failure world_offline "alice" "s3cret" (ImageStr "ng0") RequestException);
    [invoked | reflexivity | reflexivity].
Defined.

(** X7: when the search has found a job and the request for its
    connection details raises, or its answer does not decode, the run
    ends on that exception with status 1, after both requests and without
    printing anything. *)
Theorem connect_fetch_failure (w : world) (username apikey number : string)
    (image : image_value) (res : pyval) (e : exn) :
  invocation w username apikey image ->
  image_missing image = false ->
  answers w (jobs_url username apikey) res ->
  find_job res image = Ok (Some number) ->
  fetch_exn (body w (connect_url username apikey number)) = Some e ->
  run w = {| stdout := [];
             stderr := [Traceback e];
             exit_status := 1;
             requests := [jobs_url username apikey;
                          connect_url username apikey number] |}.
Proof.
  intros Hinv Hgiven Hjobs Hfind Hfetch.
  rewrite run_resolve_raise
    with (1 := Hinv) (2 := Hgiven) (e := e)
         (st := send (send initial (jobs_url username apikey))
                     (connect_url username apikey number)).
  - reflexivity.
  - rewrite resolve_address_answers with (1 := Hjobs).
    unfold resolve_listing, lift. simpl. rewrite Hfind.
    now rewrite get_connection_info_fetch_exn with (1 := Hfetch).
Qed.

Lemma connect_fetch_failure_witness :
  run world_connect_garbled
  = {| stdout := [];
       stderr := [Traceback ValueError];
       exit_status := 1;
       requests := [jobs_url "alice" "s3cret"; connect_url "alice" "s3cret" "42"] |}.
Proof.
  apply (connect_fetch_failure world_connect_garbled "alice" "s3cret" "42" (ImageStr "ng0")
           (PyDict [("42", job "ng0")]) ValueError);
    [invoked | reflexivity | answered | reflexivity | reflexivity].
Defined.

(** ** The shape of a run *)

(** Either the script stops before the first request, or it gets to the
    resolution with credentials and an image that passes the guard. *)
Lemma main_reaches w :
  (exists e st, main w initial = (Raise e, st) /\ sent st = []) \/
  (exists username apikey image,
      invocation w username apikey image /\
      image_missing image = false /\
      main w initial = resolve_address w username apikey image initial).
Proof.
  unfold main, load_config.
  destruct (nimbix_yaml w) as [config |] eqn:Hyaml; simpl.
  2: { left. now exists OSError, initial. }
  destruct (get_image (argv w) initial) as [r st1] eqn:Himage.
  destruct (get_image_cases _ _ _ _ Himage)
    as [(image & -> & ->) | [(-> & ->) | [(-> & ->) | (-> & ->)]]];
    try (left; do 2 eexists; split; reflexivity).
  unfold lift.
  destruct (config_getitem config "username") as [username | e1] eqn:Huser.
  2: { left. do 2 eexists. split; reflexivity. }
  destruct (config_getitem config "apikey") as [apikey | e1] eqn:Hkey.
  2: { left. do 2 eexists. split; reflexivity. }
  destruct (image_missing image) eqn:Hgiven.
  - left. unfold guarded, check_image. rewrite Hgiven. simpl.
    do 2 eexists. split; reflexivity.
  - right. exists username, apikey, image. split; [| split; [exact Hgiven |]].
    + constructor; [now exists config | exact Himage].
    + now apply guarded_passes.
Qed.

(** What the resolution does, read back from its result. *)
Lemma resolve_address_inv w username apikey image st r st' :
  resolve_address w username apikey image st = (r, st') ->
  (exists e, r = Raise e /\ st' = send st (jobs_url username apikey)) \/
  (exists res number,
      answers w (jobs_url username apikey) res /\
      find_job res image = Ok (Some number) /\
      ((exists e,
           r = Raise e /\
           st' = send (send st (jobs_url username apikey))
                      (connect_url username apikey number)) \/
       (exists v a,
           answers w (connect_url username apikey number) v /\
           py_getitem v "address" = Ok a /\
           r = Ok tt /\
           st' = {| out := out st ++ [Printed a]; err := err st;
                    sent := (sent st ++ [jobs_url username apikey])
                            ++ [connect_url username apikey number] |}))).
Proof.
  unfold resolve_address, list_jobs, get, lift, json_loads. simpl.
  destruct (requests_get w (jobs_url username apikey)) as [[code [res |]] |] eqn:Hjobs;
    simpl; try (intros H; injection H as <- <-; left; now eexists).
  unfold resolve_listing, lift. simpl.
  destruct (find_job res image) as [[number |] | e'] eqn:Hfind;
    try (intros H; injection H as <- <-; left; now eexists).
  intros H. right. exists res, number.
  split; [now exists code |]. split; [exact Hfind |].
  revert H. unfold get_connection_info, get, lift, json_loads. simpl.
  destruct (requests_get w (connect_url username apikey number))
    as [[code' [v |]] |] eqn:Hconnect;
    simpl; try (intros H; injection H as <- <-; left; now eexists).
  destruct (py_getitem v "address") as [a | e'] eqn:Haddress; simpl;
    intros H; injection H as <- <-.
  - right. exists v, a. split; [now exists code' |]. now repeat split.
  - left. now eexists.
Qed.

Lemma finish_requests r st : requests (finish (r, st)) = sent st.
Proof.
  destruct r as [u | e]; [reflexivity |]. now destruct e.
Qed.

(** X8: exit status 0 means one of two things.  Either [argparse]
    printed its help and no request was sent; or the script printed the
    [address] of the connection details of a job of the listing whose
    image name equals the image, after the two requests. *)
Theorem success_sound (w : world) :
  exit_status (run w) = 0%Z ->
  (stdout (run w) = [ArgparseHelp] /\ stderr (run w) = [] /\ requests (run w) = []) \/
  (exists username apikey image res number v a,
      invocation w username apikey image /\
      image_missing image = false /\
      answers w (jobs_url username apikey) res /\
      find_job res image = Ok (Some number) /\
      answers w (connect_url username apikey number) v /\
      py_getitem v "address" = Ok a /\
      run w = {| stdout := [Printed a];
                 stderr := [];
                 exit_status := 0;
                 requests := [jobs_url username apikey;
                              connect_url username apikey number] |}).
Proof.
  unfold run.
  destruct (main_reaches w)
    as [(e & st & Hmain & Hsent) | (username & apikey & image & Hinv & Hgiven & Hmain)].
  - rewrite Hmain. intros Hstatus. left.
    destruct (main_raise_cases w e st Hmain)
      as [(Hexn & _) | [(-> & Hout & Herr) | [(-> & _) | (-> & _)]]];
      try discriminate Hstatus.
    + destruct e; try discriminate Hstatus. discriminate Hexn.
    + simpl. now repeat split.
  - rewrite Hmain.
    destruct (resolve_address w username apikey image initial) as [r st] eqn:Hres.
    destruct (resolve_address_inv _ _ _ _ _ _ _ Hres)
      as [(e & -> & _) | (res & number & Hjobs & Hfind
                         & [(e & -> & _) | (v & a & Hconnect & Haddress & -> & ->)])].
    + apply resolve_address_raise in Hres. destruct Hres as (Hexn & _).
      destruct e; try discriminate; discriminate Hexn.
    + apply resolve_address_raise in Hres. destruct Hres as (Hexn & _).
      destruct e; try discriminate; discriminate Hexn.
    + intros _. right. exists username, apikey, image, res, number, v, a.
      split; [exact Hinv |]. repeat (split; [assumption |]). reflexivity.
Qed.

Lemma success_sound_witness :
  (stdout (run world_ng0) = [ArgparseHelp] /\ stderr (run world_ng0) = [] /\
   requests (run world_ng0) = []) \/
  (exists username apikey image res number v a,
      invocation world_ng0 username apikey image /\
      image_missing image = false /\
      answers world_ng0 (jobs_url username apikey) res /\
      find_job res image = Ok (Some number) /\
      answers world_ng0 (connect_url username apikey number) v /\
      py_getitem v "address" = Ok a /\
      run world_ng0 = {| stdout := [Printed a];
                         stderr := [];
                         exit_status := 0;
                         requests := [jobs_url username apikey;
                                      connect_url username apikey number] |}).
Proof.
  apply (success_sound world_ng0). reflexivity.
Defined.

(** X9: a run sends no request, or the job listing request alone, or the
    job listing request followed by the request for the connection
    details of the job the search returned; never anything else, and
    never a request before the credentials are read and the image has
    passed the guard. *)
Theorem request_discipline (w : world) :
  requests (run w) = [] \/
  exists username apikey image,
    invocation w username apikey image /\
    image_missing image = false /\
    (requests (run w) = [jobs_url username apikey] \/
     exists res number,
       answers w (jobs_url username apikey) res /\
       find_job res image = Ok (Some number) /\
       requests (run w) = [jobs_url username apikey;
                           connect_url username apikey number]).
Proof.
  unfold run.
  destruct (main_reaches w)
    as [(e & st & Hmain & Hsent) | (username & apikey & image & Hinv & Hgiven & Hmain)].
  - left. now rewrite Hmain, finish_requests.
  - right. exists username, apikey, image. split; [exact Hinv |]. split; [exact Hgiven |].
    rewrite Hmain.
    destruct (resolve_address w username apikey image initial) as [r st] eqn:Hres.
    rewrite finish_requests.
    destruct (resolve_address_inv _ _ _ _ _ _ _ Hres)
      as [(e & -> & ->) | (res & number & Hjobs & Hfind
                          & [(e & -> & ->) | (v & a & _ & _ & -> & ->)])].
    + now left.
    + right. now exists res, number.
    + right. now exists res, number.
Qed.

(** ** What fails first *)

(** X10: without a readable [nimbix.yaml] the script ends on the
    exception of [open] or [yaml.load] before it looks at the command
    line: whatever the arguments, also a request for help, nothing is
    printed but the traceback, no request is sent and the status is 1. *)
Theorem unreadable_config (w : world) :
  nimbix_yaml w = None ->
  run w = {| stdout := []; stderr := [Traceback OSError]; exit_status := 1;
             requests := [] |}.
Proof.
  intros H. unfold run, main, load_config. now rewrite H.
Qed.

Lemma unreadable_config_witness :
  run world_no_config
  = {| stdout := []; stderr := [Traceback OSError]; exit_status := 1; requests := [] |}.
Proof.
  apply (unreadable_config world_no_config). reflexivity.
Defined.

(** X11: when the command line yields an image but the configuration
    file lacks [username], or has it and lacks [apikey], the run ends on
    the [KeyError] of the first missing key, before the guard on the
    image and before any request: even for an empty image the message of
    the guard is not printed. *)
Theorem missing_credentials (w : world) (config : list (string * string))
    (image : image_value) (key : string) :
  nimbix_yaml w = Some config ->
  get_image (argv w) initial = (Ok image, initial) ->
  (key = "username" /\ dict_get config "username" = None) \/
  (key = "apikey" /\ dict_get config "username" <> None /\ dict_get config "apikey" = None) ->
  run w = {| stdout := []; stderr := [Traceback (KeyError key)]; exit_status := 1;
             requests := [] |}.
Proof.
  intros Hyaml Himage Hkey. unfold run, main, load_config, lift, config_getitem.
  rewrite Hyaml. simpl. rewrite Himage.
  destruct Hkey as [(-> & Huser) | (-> & Huser & Hapikey)].
  - now rewrite Huser.
  - destruct (dict_get config "username"); [| contradiction]. now rewrite Hapikey.
Qed.

Lemma missing_credentials_witness :
  run world_no_apikey
  = {| stdout := []; stderr := [Traceback (KeyError "apikey")]; exit_status := 1;
       requests := [] |}.
Proof.
  apply (missing_credentials world_no_apikey [("username", "alice")] (ImageStr "") "apikey").
  - reflexivity.
  - reflexivity.
  - right. split; [reflexivity |]. split; [discriminate | reflexivity].
Defined.

(** X12: with a readable configuration file, what the command line
    makes of the run does not depend on the credentials being there.
    Without argument the script ends on [IndexError]; with two or more
    arguments that [argparse] rejects it ends with the usage message and
    status 2; with two or more arguments among which [argparse] finds
    the help option first it prints the help and ends with status 0.  No
    request is sent in any of these runs. *)
Theorem command_line_before_credentials (w : world) (config : list (string * string)) :
  nimbix_yaml w = Some config ->
  ((length (argv w) <= 1)%nat ->
   run w = {| stdout := []; stderr := [Traceback IndexError]; exit_status := 1;
              requests := [] |}) /\
  ((2 < length (argv w))%nat ->
   Argparse.parse_args "ng0" (tl (argv w)) = Argparse.ErrorExit ->
   run w = {| stdout := []; stderr := [ArgparseUsage]; exit_status := 2;
              requests := [] |}) /\
  ((2 < length (argv w))%nat ->
   Argparse.parse_args "ng0" (tl (argv w)) = Argparse.HelpExit ->
   run w = {| stdout := [ArgparseHelp]; stderr := []; exit_status := 0;
              requests := [] |}).
Proof.
  intros Hyaml. unfold run, main, load_config. rewrite Hyaml.
  split; [| split].
  - intros Hlen.
    assert (Himage : get_image (argv w) initial = (Raise IndexError, initial)).
    { unfold get_image.
      assert (Hbranch : (2 <? length (argv w))%nat = false) by (apply Nat.ltb_ge; lia).
      assert (Hnth : nth_error (argv w) 1 = None) by (apply nth_error_None; lia).
      now rewrite Hbranch, Hnth. }
    simpl. now rewrite Himage.
  - intros Hlen Hparse.
    assert (Himage : get_image (argv w) initial
                     = (Raise (SystemExit 2),
                        {| out := []; err := [ArgparseUsage]; sent := [] |})).
    { unfold get_image. apply Nat.ltb_lt in Hlen. now rewrite Hlen, Hparse. }
    simpl. now rewrite Himage.
  - intros Hlen Hparse.
    assert (Himage : get_image (argv w) initial
                     = (Raise (SystemExit 0),
                        {| out := [ArgparseHelp]; err := []; sent := [] |})).
    { unfold get_image. apply Nat.ltb_lt in Hlen. now rewrite Hlen, Hparse. }
    simpl. now rewrite Himage.
Qed.

Lemma command_line_before_credentials_witness :
  run world_no_args
  = {| stdout := []; stderr := [Traceback IndexError]; exit_status := 1; requests := [] |} /\
  run world_bad_args
  = {| stdout := []; stderr := [ArgparseUsage]; exit_status := 2; requests := [] |}.
Proof.
  split.
  - apply (command_line_before_credentials world_no_args
             [("username", "alice"); ("apikey", "s3cret")]); [reflexivity | simpl; lia].
  - apply (command_line_before_credentials world_bad_args []);
      [reflexivity | simpl; lia | reflexivity].
Defined.

(** ** Repeated options *)

Lemma parse_optional_image_equals v :
  Argparse.parse_optional (image_equals v)
  = Argparse.Optional (Some Argparse.StoreImage, "--image", Some v).
Proof. reflexivity. Qed.

Lemma classify_image_equals vs :
  Argparse.classify (map image_equals vs)
  = Some (map (fun v => (image_equals v,
                         Argparse.SymO (Some Argparse.StoreImage, "--image", Some v))) vs).
Proof.
  induction vs as [| v vs IH]; [reflexivity |].
  cbn [map Argparse.classify].
  change (String.eqb (image_equals v) "--") with false.
  now rewrite parse_optional_image_equals, IH.
Qed.

Lemma consume_image_equals vs : forall image extras,
  Argparse.consume
    (map (fun v => (image_equals v,
                    Argparse.SymO (Some Argparse.StoreImage, "--image", Some v))) vs)
    image extras
  = Argparse.consume [] (fold_left (fun _ v => Argparse.get_values [v]) vs image) extras.
Proof.
  induction vs as [| v vs IH]; intros image extras; [reflexivity |].
  cbn [map Argparse.consume fold_left].
  rewrite explicit_loop_image. cbn [Argparse.take_actions]. apply IH.
Qed.

Lemma fold_left_last {A B : Type} (f : B -> A) (vs : list B) (d : B) (a : A) :
  vs <> [] -> fold_left (fun _ v => f v) vs a = f (last vs d).
Proof.
  revert a. induction vs as [| v vs IH]; intros a Hne; [contradiction |].
  destruct vs as [| v' vs']; [reflexivity |].
  cbn [fold_left]. cbn [fold_left] in IH. rewrite (IH (f v)) by discriminate. reflexivity.
Qed.

Lemma get_values_single v :
  Argparse.get_values [v]
  = if String.eqb v "--" then ImageList [] else ImageStr v.
Proof.
  unfold Argparse.get_values. cbn [Argparse.remove_first_dashes].
  now destruct (String.eqb v "--").
Qed.

(** X13: with two or more arguments, all of the form [--image=v], the
    image is the value of the last one, taken verbatim whatever it looks
    like (an empty string, a string that begins with a dash); only the
    value [--] leaves the image an empty list instead of a string. *)
Theorem last_image_option_wins (prog : string) (vs : list string) (st : state) :
  (2 <= length vs)%nat ->
  get_image (prog :: map image_equals vs) st
  = (Ok (if String.eqb (last vs "") "--" then ImageList [] else ImageStr (last vs "")), st).
Proof.
  intros Hlen. unfold get_image.
  assert (Hbranch : (2 <? length (prog :: map image_equals vs))%nat = true).
  { apply Nat.ltb_lt. simpl. rewrite length_map. lia. }
  rewrite Hbranch. cbn [tl]. unfold Argparse.parse_args.
  rewrite classify_image_equals, consume_image_equals.
  rewrite fold_left_last with (d := "") by (destruct vs; [simpl in Hlen; lia | discriminate]).
  cbn [Argparse.consume]. now rewrite get_values_single.
Qed.

Lemma last_image_option_wins_witness :
  get_image ["ssh.py"; "--image=ng1"; "--image=-x"] initial = (Ok (ImageStr "-x"), initial).
Proof.
  apply (last_image_option_wins "ssh.py" ["ng1"; "-x"] initial). simpl. lia.
Defined.

(** ** The URLs *)

Lemma append_assoc (a b c : string) : ((a ++ b) ++ c = a ++ b ++ c)%string.
Proof.
  induction a as [| x a IH]; [reflexivity |]. simpl. now rewrite IH.
Qed.

Lemma append_cancel (a x y : string) : (a ++ x = a ++ y)%string -> x = y.
Proof.
  induction a as [| c a IH]; simpl; [auto |]. intros H. injection H as H. auto.
Qed.

(** X14: the credentials go into the query string as they are, without
    escaping, so the URL does not tell a [&apikey=] inside the user name
    from the separator: two different pairs of credentials give the same
    job listing URL. *)
Theorem jobs_url_not_escaped (username x apikey : string) :
  jobs_url (username ++ "&apikey=" ++ x) apikey
  = jobs_url username (x ++ "&apikey=" ++ apikey).
Proof.
  unfold jobs_url. now rewrite !append_assoc.
Qed.

(** X15: for given credentials the connection details of different job
    numbers are asked at different URLs, and none of them is the URL of
    the job listing. *)
Theorem urls_distinct (username apikey : string) :
  (forall n m, connect_url username apikey n = connect_url username apikey m -> n = m) /\
  (forall username' apikey' n,
      jobs_url username apikey <> connect_url username' apikey' n).
Proof.
  split.
  - intros n m H. unfold connect_url in H.
    repeat (apply append_cancel in H). exact H.
  - intros username' apikey' n H. unfold jobs_url, connect_url in H.
    apply append_cancel in H. discriminate H.
Qed.
